(** * efficiency.py: two delayed units launched on two threads

    The script defines two functions, [this] and [that], each printing a
    start line, sleeping, and printing a completion line, and starts one
    [threading.Thread] per function without joining either.

    The embedding has three layers.
    - [prog]: straight-line Python code as a tree of the four library calls
      the script makes ([print], [time.sleep], [Thread(target=...)],
      [.start()]), with the thread handle bound by a Rocq function.
    - [exec]: one step of the interpreter on a [state] (logical clock, thread
      pool, event log, exit status), driven by a scheduler [choice].  The
      function is executable, so a schedule can be run on [init].
    - [reachable]: the states some schedule leads to from [init].

    What is assumed of the Python runtime is written next to the definition
    that embodies it.  Time is a logical clock: the scheduler may let any
    amount of it pass between two steps, and a sleeping thread cannot go on
    before its wake-up time. *)

From Stdlib Require Import QArith Lqa.
From stdpp Require Import base option list strings.

Open Scope string_scope.

(** ** Programs *)

(** Thread handles are indices into the pool; index 0 is the main thread. *)
Definition tid := nat.
Bind Scope nat_scope with tid.

Inductive prog : Type :=
| ret                                        (* control falls off the end *)
| print (line : string) (k : prog)           (* print(line) *)
| time_sleep (secs : Q) (k : prog)           (* time.sleep(secs) *)
| Thread (target : prog) (k : tid → prog)    (* v = Thread(target=target) *)
| start (v : tid) (k : prog).                (* v.start() *)

Declare Scope prog_scope.
Delimit Scope prog_scope with prog.
Bind Scope prog_scope with prog.
Notation "c ;; k" := (c k%prog)
  (at level 100, k at level 200, only parsing, right associativity) : prog_scope.
Notation "x ← c ; k" := (c (λ x : tid, k%prog))
  (at level 20, c at level 100, k at level 200, only parsing) : prog_scope.

(** efficiency.py, lines 4-7. *)
Definition this : prog :=
  (print "Starting this...";;
   time_sleep 2;;
   print "Did this!";;
   ret)%prog.

(** efficiency.py, lines 9-12. *)
Definition that : prog :=
  (print "Starting that...";;
   time_sleep 3;;
   print "Did that!";;
   ret)%prog.

(** efficiency.py, lines 15-19: the module's top level, run by the main
    thread. *)
Definition main : prog :=
  (t1 ← Thread this;
   start t1;;
   t2 ← Thread that;
   start t2;;
   ret)%prog.

(** ** Interpreter state *)

Inductive exn := OSError | ValueError | RuntimeError.

Inductive outcome := Returned | Raised (e : exn).

Inductive tstate : Type :=
| Initial                          (* Thread object built, not started *)
| Active (k : prog)                (* running, [k] is what remains *)
| Asleep (until : Q) (k : prog)    (* inside time.sleep *)
| Stopped (o : outcome).

Record thread := mkThread { daemon : bool; target : prog; st : tstate }.

(** What a thread does that others can see. *)
Inductive event :=
| Wrote (line : string)     (* a line reached standard output *)
| Slept (secs : Q)          (* the thread asked to be suspended *)
| Spawned (child : tid)     (* a Thread object was built *)
| Launched (child : tid)    (* a thread was started *)
| Threw (e : exn).          (* an exception left the thread's function *)

Record entry := mkEntry { when : Q; who : tid; what : event }.

Record state := mkState {
  clock : Q;
  pool : list thread;
  log : list entry;
  exit_code : option Z
}.

(** The history of one thread, and the lines on standard output. *)
Definition by_thread (t : tid) (e : entry) : bool := Nat.eqb (who e) t.

Definition history (t : tid) (l : list entry) : list entry :=
  List.filter (by_thread t) l.

Definition line_of (e : entry) : option string :=
  match what e with Wrote x => Some x | _ => None end.

Definition lines (l : list entry) : list string := omap line_of l.

Definition stdout (s : state) : list string := lines (log s).

Definition alive (x : tstate) : bool :=
  match x with Active _ | Asleep _ _ => true | _ => false end.

Definition stopped (x : tstate) : bool :=
  match x with Stopped _ => true | _ => false end.

(** ** One step *)

Definition set_st (t : tid) (th : thread) (x : tstate) (s : state) : state :=
  {| clock := clock s;
     pool := <[t := {| daemon := daemon th; target := target th; st := x |}]> (pool s);
     log := log s;
     exit_code := exit_code s |}.

Definition record (t : tid) (ev : event) (s : state) : state :=
  {| clock := clock s;
     pool := pool s;
     log := log s ++ [{| when := clock s; who := t; what := ev |}];
     exit_code := exit_code s |}.

Definition add_thread (th : thread) (s : state) : state :=
  {| clock := clock s;
     pool := pool s ++ [th];
     log := log s;
     exit_code := exit_code s |}.

Definition raise (t : tid) (th : thread) (e : exn) (s : state) : state :=
  record t (Threw e) (set_st t th (Stopped (Raised e)) s).

(** Thread [t], whose record is [th], executes the first call of [p].
    - [print] writes one whole line (the write is taken as atomic).
    - [time.sleep] raises [ValueError] on a negative length, and otherwise
      blocks the caller until the clock has advanced by [secs].
    - [Thread(target=f)] builds a thread that inherits the creator's daemon
      flag and is not yet running.
    - [start] raises [RuntimeError] unless the thread is still [Initial]. *)
Definition perform (t : tid) (th : thread) (p : prog) (s : state) : state :=
  match p with
  | ret => set_st t th (Stopped Returned) s
  | print line k => record t (Wrote line) (set_st t th (Active k) s)
  | time_sleep secs k =>
      if Qle_bool 0 secs
      then record t (Slept secs) (set_st t th (Asleep (clock s + secs) k) s)
      else raise t th ValueError s
  | Thread f k =>
      let child := length (pool s) in
      record t (Spawned child)
        (set_st t th (Active (k child))
           (add_thread {| daemon := daemon th; target := f; st := Initial |} s))
  | start v k =>
      match pool s !! v with
      | Some c =>
          match st c with
          | Initial =>
              record t (Launched v)
                (set_st v c (Active (target c)) (set_st t th (Active k) s))
          | _ => raise t th RuntimeError s
          end
      | None => raise t th RuntimeError s
      end
  end.

(** The interpreter leaves once the main thread has ended and no non-daemon
    thread is alive; the status is 0 unless the main thread raised.  The
    flush of standard output at shutdown is taken to succeed: CPython exits
    with status 120 when it fails, a case this model leaves out, so nothing
    below is stated of the status of every exit. *)
Definition may_leave (th : thread) : bool := daemon th || negb (alive (st th)).

Definition exit_status (s : state) : option Z :=
  match pool s !! 0%nat with
  | Some th =>
      match st th with
      | Stopped Returned => Some 0%Z
      | Stopped (Raised _) => Some 1%Z
      | _ => None
      end
  | None => None
  end.

Definition leave (s : state) : option state :=
  if forallb may_leave (pool s)
  then code ← exit_status s;
       Some {| clock := clock s; pool := pool s; log := log s;
               exit_code := Some code |}
  else None.

(** What the scheduler and the environment decide.  A failing print fails as
    a whole, before anything is written; CPython writes the text and the
    newline separately, so a failure between the two can leave a partial
    line, a case this model leaves out. *)
Inductive choice :=
| Tick (d : Q)       (* time passes *)
| Run (t : tid)      (* thread [t] executes its next call *)
| Fail (t : tid)     (* the write of thread [t]'s pending print fails *)
| Wake (t : tid)     (* thread [t] returns from time.sleep *)
| Exit.              (* the interpreter shuts down *)

Definition exec (s : state) (c : choice) : option state :=
  match exit_code s with
  | Some _ => None
  | None =>
      match c with
      | Tick d =>
          if Qle_bool 0 d
          then Some {| clock := clock s + d; pool := pool s; log := log s;
                       exit_code := None |}
          else None
      | Run t =>
          th ← pool s !! t;
          match st th with
          | Active p => Some (perform t th p s)
          | _ => None
          end
      | Fail t =>
          th ← pool s !! t;
          match st th with
          | Active (print _ _) => Some (raise t th OSError s)
          | _ => None
          end
      | Wake t =>
          th ← pool s !! t;
          match st th with
          | Asleep until k =>
              if Qle_bool until (clock s)
              then Some (set_st t th (Active k) s)
              else None
          | _ => None
          end
      | Exit => leave s
      end
  end.

Fixpoint run (s : state) (cs : list choice) : option state :=
  match cs with
  | [] => Some s
  | c :: cs' =>
      match exec s c with
      | Some s' => run s' cs'
      | None => None
      end
  end.

Definition init : state :=
  {| clock := 0;
     pool := [{| daemon := false; target := main; st := Active main |}];
     log := [];
     exit_code := None |}.

Definition reachable (s : state) : Prop := ∃ cs, run init cs = Some s.

(** A run is normal when no write to standard output has failed. *)
Definition stream_failure (e : entry) : bool :=
  match what e with Threw OSError => true | _ => false end.

Definition normal (s : state) : Prop :=
  forallb (λ e, negb (stream_failure e)) (log s) = true.

(** ** Observations *)

Local Open Scope Q_scope.

(** What a unit's thread has printed so far. *)
Definition emitted (t : tid) (s : state) : list string :=
  lines (history t (log s)).

(** What the main thread has done so far. *)
Definition launched (s : state) : list event := map what (history 0 (log s)).

(** [t] has run its function to the end in [s]. *)
Definition returned (t : tid) (s : state) : Prop :=
  ∃ th, pool s !! t = Some th ∧ st th = Stopped Returned.

(** A completed invocation of [f] by thread [t]: the thread was built for
    [f], and its whole history is the start line, a pause of [d], and the
    completion line, the second line no earlier than [d] after the pause
    began. *)
Definition invoked (t : tid) (f : prog) (a : string) (d : Q) (b : string)
    (s : state) : Prop :=
  ∀ th, pool s !! t = Some th → st th = Stopped Returned →
    target th = f
    ∧ ∃ c0 c1 c2,
        history t (log s) =
          [mkEntry c0 t (Wrote a); mkEntry c1 t (Slept d);
           mkEntry c2 t (Wrote b)]
        ∧ c0 <= c1 ∧ c1 + d <= c2.

(** Thread [t], running a unit that sleeps for [d], is inside its sleep: it
    has printed the start line [a] and asked for a pause of [d], it is to
    wake exactly [d] after that request, and until then it takes no step. *)
Definition suspended (t : tid) (a : string) (d : Q) (s : state) : Prop :=
  ∀ th until k, pool s !! t = Some th → st th = Asleep until k →
    (∃ c0 c1,
        history t (log s) = [mkEntry c0 t (Wrote a); mkEntry c1 t (Slept d)]
        ∧ until = c1 + d)
    ∧ exec s (Run t) = None
    ∧ exec s (Fail t) = None
    ∧ (clock s < until → exec s (Wake t) = None).

(** How often a line occurs on standard output. *)
Definition occurrences (x : string) (l : list string) : nat :=
  count_occ String.string_dec l x.

(** [interleaving l1 l2 l]: [l] merges [l1] and [l2], keeping the order of
    each. *)
Inductive interleaving {A : Type} : list A → list A → list A → Prop :=
| merge_nil : interleaving [] [] []
| merge_left x l1 l2 l :
    interleaving l1 l2 l → interleaving (x :: l1) l2 (x :: l)
| merge_right x l1 l2 l :
    interleaving l1 l2 l → interleaving l1 (x :: l2) (x :: l).

(** [precedes x y l]: every occurrence of [y] in [l] has an [x] before
    it. *)
Definition precedes {A : Type} (x y : A) (l : list A) : Prop :=
  ∀ pre post, l = (pre ++ y :: post)%list → x ∈ pre.

(** ** Schedules *)

Definition after (cs : list choice) : state :=
  match run init cs with Some s => s | None => init end.

(** The launcher runs to its end, then both units; the clock advances while
    they sleep. *)
Definition launcher_first : list choice :=
  [Run 0; Run 0; Run 0; Run 0; Run 0;
   Run 1; Run 2; Run 1; Run 2; Tick 2; Wake 1; Run 1; Run 1;
   Tick 1; Wake 2; Run 2; Run 2; Exit]%nat.

(** Each unit runs to its end as soon as it has been started, before the
    launcher goes on; the clock runs ahead of what the sleeps need. *)
Definition units_first : list choice :=
  [Run 0; Run 0; Run 1; Run 1; Tick 5; Wake 1; Run 1; Run 1;
   Run 0; Run 0; Run 2; Run 2; Tick 3; Wake 2; Run 2; Run 2;
   Run 0; Exit]%nat.

(** The launcher alone, to its end. *)
Definition launcher_only : list choice := [Run 0; Run 0; Run 0; Run 0; Run 0]%nat.

(** Both units reach their sleep while the launcher has yet to return. *)
Definition all_in_flight : list choice :=
  [Run 0; Run 0; Run 0; Run 0; Run 1; Run 2; Run 1; Run 2]%nat.

(** [this] prints before the launcher has built the second thread. *)
Definition unit_overtakes : list choice := [Run 0; Run 0; Run 1]%nat.

(** [that] prints before [this] does. *)
Definition that_first : list choice :=
  [Run 0; Run 0; Run 0; Run 0; Run 2; Run 1]%nat.

(** The first write of [this] fails; the launcher and [that] carry on. *)
Definition broken_start : list choice :=
  [Run 0; Run 0; Fail 1; Run 0; Run 0; Run 0;
   Run 2; Run 2; Tick 3; Wake 2; Run 2; Run 2; Exit]%nat.

(** ** Shapes of the reachable states *)

(** Both functions have the same shape: a line, a pause, a line. *)
Definition unit (a : string) (d : Q) (b : string) : prog :=
  (print a;; time_sleep d;; print b;; ret)%prog.

(** Where a thread running [unit a d b] can be, with what it has logged so
    far.  [now] is the current clock. *)
Inductive unit_at (t : tid) (a : string) (d : Q) (b : string) (now : Q) :
  option tstate → list entry → Prop :=
| at_absent :
    unit_at t a d b now None []
| at_built :
    unit_at t a d b now (Some Initial) []
| at_entry :
    unit_at t a d b now (Some (Active (unit a d b))) []
| at_begun c0 :
    c0 <= now →
    unit_at t a d b now (Some (Active (time_sleep d (print b ret))))
      [mkEntry c0 t (Wrote a)]
| at_asleep c0 c1 :
    c0 <= c1 → c1 <= now →
    unit_at t a d b now (Some (Asleep (c1 + d) (print b ret)))
      [mkEntry c0 t (Wrote a); mkEntry c1 t (Slept d)]
| at_awake c0 c1 :
    c0 <= c1 → c1 + d <= now →
    unit_at t a d b now (Some (Active (print b ret)))
      [mkEntry c0 t (Wrote a); mkEntry c1 t (Slept d)]
| at_done c0 c1 c2 :
    c0 <= c1 → c1 + d <= c2 → c2 <= now →
    unit_at t a d b now (Some (Active ret))
      [mkEntry c0 t (Wrote a); mkEntry c1 t (Slept d); mkEntry c2 t (Wrote b)]
| at_returned c0 c1 c2 :
    c0 <= c1 → c1 + d <= c2 → c2 <= now →
    unit_at t a d b now (Some (Stopped Returned))
      [mkEntry c0 t (Wrote a); mkEntry c1 t (Slept d); mkEntry c2 t (Wrote b)]
| at_broken_early c0 :
    c0 <= now →
    unit_at t a d b now (Some (Stopped (Raised OSError)))
      [mkEntry c0 t (Threw OSError)]
| at_broken_late c0 c1 c2 :
    c0 <= c1 → c1 + d <= c2 → c2 <= now →
    unit_at t a d b now (Some (Stopped (Raised OSError)))
      [mkEntry c0 t (Wrote a); mkEntry c1 t (Slept d);
       mkEntry c2 t (Threw OSError)].

Definition launcher_events : list event :=
  [Spawned 1; Launched 1; Spawned 2; Launched 2].

(** Where the main thread can be: its own state, the states of the threads
    it has built so far, and what it has logged. *)
Inductive main_at : tstate → list tstate → list event → Prop :=
| main_0 :
    main_at (Active main) [] []
| main_1 :
    main_at (Active (start 1 (Thread that (λ t2, start t2 ret)))) [Initial]
      (take 1 launcher_events)
| main_2 x1 :
    x1 ≠ Initial →
    main_at (Active (Thread that (λ t2, start t2 ret))) [x1]
      (take 2 launcher_events)
| main_3 x1 :
    x1 ≠ Initial →
    main_at (Active (start 2 ret)) [x1; Initial] (take 3 launcher_events)
| main_4 x1 x2 :
    x1 ≠ Initial → x2 ≠ Initial →
    main_at (Active ret) [x1; x2] launcher_events
| main_5 x1 x2 :
    x1 ≠ Initial → x2 ≠ Initial →
    main_at (Stopped Returned) [x1; x2] launcher_events.

Definition mk (f : prog) (x : tstate) : thread :=
  {| daemon := false; target := f; st := x |}.

(** Log entries are by the two units, or are the main thread's and are not
    lines. *)
Definition owned (e : entry) : bool :=
  match who e with
  | 0%nat => match line_of e with None => true | Some _ => false end
  | 1%nat | 2%nat => true
  | _ => false
  end.

Definition exit_ok (code : option Z) (x0 : tstate) (xs : list tstate) : Prop :=
  match code with
  | None => True
  | Some z => z = 0%Z ∧ x0 = Stopped Returned ∧ Forall (λ x, alive x = false) xs
  end.

Definition Inv (s : state) : Prop :=
  ∃ x0 xs h0 h1 h2,
    pool s = mk main x0 :: zip_with mk [this; that] xs
    ∧ map what (history 0 (log s)) = h0
    ∧ history 1 (log s) = h1
    ∧ history 2 (log s) = h2
    ∧ main_at x0 xs h0
    ∧ unit_at 1 "Starting this..." 2 "Did this!" (clock s) (xs !! 0%nat) h1
    ∧ unit_at 2 "Starting that..." 3 "Did that!" (clock s) (xs !! 1%nat) h2
    ∧ Forall (λ e, owned e = true) (log s)
    ∧ exit_ok (exit_code s) x0 xs.

(** ** A measure of what is left to do *)

(** A bound on the steps a piece of code still needs: one per call, two more
    for a sleep (the clock must advance, the thread must wake), one to
    return.  The continuation of [Thread] is measured at handle 0; the
    script's continuations do not branch on the handle. *)
Fixpoint size (p : prog) : nat :=
  match p with
  | ret => 1
  | print _ k => S (size k)
  | time_sleep _ k => 3 + size k
  | Thread f k => S (size f + size (k 0%nat))
  | start _ k => S (size k)
  end.

Definition work (now : Q) (f : prog) (x : tstate) : nat :=
  match x with
  | Initial => size f
  | Active k => size k
  | Asleep until k => (if Qle_bool until now then 1 else 2) + size k
  | Stopped _ => 0
  end.

Definition todo (s : state) : nat :=
  (sum_list (map (λ th, work (clock s) (target th) (st th)) (pool s))
   + match exit_code s with None => 1 | Some _ => 0 end)%nat.

(** ** More observations *)


(** Every log entry of a thread other than the main one comes after the
    main thread's start of that thread. *)
Definition started_first (l : list entry) : Prop :=
  ∀ pre e post, l = (pre ++ e :: post)%list → who e ≠ 0%nat →
    ∃ e', e' ∈ pre ∧ who e' = 0%nat ∧ what e' = Launched (who e).

(** Clock and time stamps start at 0 and never go below. *)
Definition since_zero (s : state) : Prop :=
  0 <= clock s ∧ Forall (λ e, 0 <= when e) (log s).

(** The choices of a schedule that are steps of the program or of the
    interpreter, not the mere passage of time. *)
Definition is_move (c : choice) : bool :=
  match c with Tick _ => false | _ => true end.

Definition moves (cs : list choice) : nat := length (List.filter is_move cs).

(** The moves a piece of code still needs: one per call, one more to wake
    from a sleep, one to return.  As with [size], the continuation of
    [Thread] is measured at handle 0. *)
Fixpoint cost (p : prog) : nat :=
  match p with
  | ret => 1
  | print _ k => S (cost k)
  | time_sleep _ k => 2 + cost k
  | Thread f k => S (cost f + cost (k 0%nat))
  | start _ k => S (cost k)
  end.

Definition owed (f : prog) (x : tstate) : nat :=
  match x with
  | Initial => cost f
  | Active k => cost k
  | Asleep _ k => S (cost k)
  | Stopped _ => 0
  end.

Definition moves_left (s : state) : nat :=
  (sum_list (map (λ th, owed (target th) (st th)) (pool s))
   + match exit_code s with None => 1 | Some _ => 0 end)%nat.

(** The run [broken_start] just after the failed write. *)
Definition broken_midway : list choice := take 3 broken_start.

(** ** Whole invocations and failures *)

(** What thread [t] has done so far, without the time stamps. *)
Definition events (t : tid) (s : state) : list event :=
  map what (history t (log s)).

(** What a complete invocation of a unit does. *)
Definition unit_events (a : string) (d : Q) (b : string) : list event :=
  [Wrote a; Slept d; Wrote b].

(** [l] is an initial part of a unit's invocation, or such a part cut short
    by a failed write. *)
Definition on_script (a : string) (d : Q) (b : string) (l : list event) : Prop :=
  l `prefix_of` unit_events a d b
  ∨ ∃ l', l' `prefix_of` unit_events a d b ∧ l = (l' ++ [Threw OSError])%list.

(** No write of thread [t] has failed. *)
Definition unfailed (t : tid) (s : state) : Prop :=
  List.filter stream_failure (history t (log s)) = [].

(** [this] is left in its sleep of 2 until the clock shows 1000. *)
Definition overslept : list choice :=
  [Run 0; Run 0; Run 1; Run 1; Tick 1000; Wake 1; Run 1; Run 1]%nat.

(** ** Lists: interleavings and precedence *)

Section Lists.
Context {A : Type}.
Implicit Types (l : list A) (x y z : A).

Lemma interleaving_perm l1 l2 l :
  interleaving l1 l2 l → (l1 ++ l2)%list ≡ₚ l.
Proof.
  induction 1; simpl.
  - constructor.
  - now constructor.
  - rewrite <- IHinterleaving. symmetry. apply Permutation_middle.
Qed.


Lemma interleaving_sym l1 l2 l :
  interleaving l1 l2 l → interleaving l2 l1 l.
Proof. induction 1; now constructor. Qed.

Lemma precedes_nil x y : precedes x y [].
Proof. intros [|? ?] post H; discriminate. Qed.

Lemma precedes_tail x y z l :
  x ≠ z → precedes x y (z :: l) → precedes x y l.
Proof.
  intros Hne H pre post ->.
  specialize (H (z :: pre) post eq_refl).
  apply elem_of_cons in H as [H|H]; [contradiction | exact H].
Qed.

Lemma precedes_cons x y z l :
  z ≠ y → precedes x y l → precedes x y (z :: l).
Proof.
  intros Hne H [|w pre] post E; simpl in E.
  - congruence.
  - injection E as -> E. right. eapply H, E.
Qed.

Lemma precedes_single x y : x ≠ y → precedes x y [x].
Proof.
  intros Hne [|w [|? ?]] post E; simpl in E; try discriminate.
  congruence.
Qed.

Lemma precedes_pair x y : x ≠ y → precedes x y [x; y].
Proof.
  intros Hne [|w pre] post E; simpl in E.
  - congruence.
  - injection E as -> _. left.
Qed.

Lemma precedes_prefix x y l l' :
  l `prefix_of` l' → precedes x y l' → precedes x y l.
Proof.
  intros [k ->] H pre post ->.
  apply (H pre (post ++ k)%list). now rewrite <- app_assoc.
Qed.

Context `{!EqDecision A}.

Lemma precedes_interleaving x y l1 l2 l :
  interleaving l1 l2 l → y ∉ l2 → precedes x y l1 → precedes x y l.
Proof.
  induction 1 as [|z l1 l2 l Hm IH|z l1 l2 l Hm IH]; intros Hy Hp.
  - apply precedes_nil.
  - intros [|w pre] post E; simpl in E.
    + injection E as -> _. specialize (Hp [] l1 eq_refl). inversion Hp.
    + injection E as -> E.
      destruct (decide (x = w)) as [->|Hne]; [left|].
      right. eapply IH; eauto using precedes_tail.
  - apply not_elem_of_cons in Hy as [Hne Hy].
    apply precedes_cons; auto.
Qed.

End Lists.

Lemma occurrences_interleaving x l1 l2 l :
  interleaving l1 l2 l →
  occurrences x l = (occurrences x l1 + occurrences x l2)%nat.
Proof.
  intros H. apply interleaving_perm in H. unfold occurrences.
  rewrite <- (proj1 (Permutation_count_occ String.string_dec _ _) H x).
  apply count_occ_app.
Qed.

Lemma prefix_comparable (a b : string) (l l' : list string) :
  l = [] ∨ l = [a] ∨ l = [a; b] →
  l' = [] ∨ l' = [a] ∨ l' = [a; b] →
  l `prefix_of` l' ∨ l' `prefix_of` l.
Proof.
  intros [-> | [-> | ->]] [-> | [-> | ->]];
    first [ left; apply prefix_nil | right; apply prefix_nil
          | left; now eexists | right; now eexists ].
Qed.

Ltac not_listed :=
  let H := fresh in
  intros H;
  repeat (apply elem_of_cons in H as [H|H]; [discriminate H|]);
  apply elem_of_nil in H; exact H.

(** ** Runs *)

Lemma run_app s cs cs' s1 :
  run s cs = Some s1 → run s (cs ++ cs') = run s1 cs'.
Proof.
  revert s. induction cs as [|c cs IH]; simpl; intros s Hr.
  - congruence.
  - destruct (exec s c); [auto | discriminate].
Qed.

Lemma reachable_run s cs s' : reachable s → run s cs = Some s' → reachable s'.
Proof.
  intros [cs0 Hr] Hr'. exists (cs0 ++ cs)%list.
  now rewrite (run_app _ _ _ _ Hr).
Qed.

Lemma reachable_after cs : reachable (after cs).
Proof.
  unfold after. destruct (run init cs) as [s|] eqn:E.
  - now exists cs.
  - now exists [].
Qed.

(** ** The invariant holds along every run *)

Lemma history_snoc t l e :
  history t (l ++ [e]) =
  if by_thread t e then (history t l ++ [e])%list else history t l.
Proof.
  unfold history. rewrite List.filter_app. simpl.
  destruct (by_thread t e); [reflexivity | apply app_nil_r].
Qed.

Lemma unit_at_later t a d b now now' x h :
  now <= now' → unit_at t a d b now x h → unit_at t a d b now' x h.
Proof.
  intros Hle H. destruct H; econstructor; try eassumption; lra.
Qed.

Lemma Inv_init : Inv init.
Proof.
  exists (Active main), [], [], [], []. simpl.
  repeat split; constructor.
Qed.

Lemma Qle_bool_2 : Qle_bool 0 2 = true.
Proof. reflexivity. Qed.

Lemma Qle_bool_3 : Qle_bool 0 3 = true.
Proof. reflexivity. Qed.

Lemma Qle_bool_false x y : Qle_bool x y = false → y < x.
Proof.
  intros E. apply Qnot_le_lt. intros H. apply Qle_bool_iff in H. congruence.
Qed.

Local Arguments Qplus : simpl never.
Local Arguments Qle_bool : simpl never.

(** Names the witnesses of [Inv] from the pool of the goal's state. *)
Ltac name_states :=
  lazymatch goal with
  | |- Inv ?s =>
      let p := eval simpl in (map st (pool s)) in
      lazymatch p with
      | ?x :: ?r => exists x, r; do 3 eexists
      end
  end.

Ltac history_step :=
  simpl; rewrite ?history_snoc; simpl; rewrite ?map_app;
  repeat match goal with
         | H : history _ _ = _ |- _ => rewrite H
         | H : map what (history _ _) = _ |- _ => rewrite H
         end.

(** Case analysis on where a unit's thread is. *)
Ltac open_unit H E :=
  revert E; inversion H; subst; intros E.

Ltac settle :=
  lazymatch goal with
  | |- _ = _ => history_step; reflexivity
  | |- main_at _ _ _ => simpl; constructor; first [assumption | discriminate]
  | |- unit_at ?t _ _ _ _ _ _ =>
      simpl;
      first [ eassumption
            | econstructor; first [eassumption | lra]
            | match goal with
              | H : unit_at t _ _ _ _ _ _ |- _ =>
                  inversion H; subst; econstructor; first [eassumption | lra]
              end ]
  | |- Forall _ _ =>
      simpl;
      first [ assumption
            | apply Forall_app; split; [assumption | repeat constructor] ]
  | |- exit_ok _ _ _ => simpl; try exact I
  end.

Ltac rebuild Hx :=
  injection Hx as <-; name_states; split_and!; settle.

Lemma Inv_exec s c s' : Inv s → exec s c = Some s' → Inv s'.
Proof.
  intros (x0 & xs & h0 & h1 & h2 & Hp & E0 & E1 & E2 & Hm & H1 & H2 & Hl & He) Hx.
  destruct s as [clk pl lg ec]; simpl in *; subst pl.
  unfold exec in Hx; simpl in Hx.
  destruct ec; [discriminate|].
  destruct c as [d | t | t | t | ].
  - (* Tick *)
    destruct (Qle_bool 0 d) eqn:Hd; [|discriminate].
    apply Qle_bool_iff in Hd. injection Hx as <-.
    exists x0, xs, h0, h1, h2. simpl.
    assert (clk <= clk + d) by lra.
    split_and!; eauto using unit_at_later.
  - (* Run *)
    destruct Hm; simpl in *;
      destruct t as [|[|[|t]]]; simpl in Hx; try discriminate.
    all: try (rebuild Hx; fail).
    all: try (open_unit H1 E1; simpl in Hx; try discriminate;
              rewrite ?Qle_bool_2 in Hx; rebuild Hx; fail).
    all: try (open_unit H2 E2; simpl in Hx; try discriminate;
              rewrite ?Qle_bool_3 in Hx; rebuild Hx; fail).
  - (* Fail *)
    destruct Hm; simpl in *;
      destruct t as [|[|[|t]]]; simpl in Hx; try discriminate.
    all: try (open_unit H1 E1; simpl in Hx; try discriminate;
              rebuild Hx; fail).
    all: try (open_unit H2 E2; simpl in Hx; try discriminate;
              rebuild Hx; fail).
  - (* Wake *)
    destruct Hm; simpl in *;
      destruct t as [|[|[|t]]]; simpl in Hx; try discriminate.
    all: try (open_unit H1 E1; simpl in Hx; try discriminate;
              match type of Hx with
              | context [Qle_bool ?u ?v] =>
                  destruct (Qle_bool u v) eqn:Hd; [|discriminate];
                  apply Qle_bool_iff in Hd
              end; rebuild Hx; fail).
    all: try (open_unit H2 E2; simpl in Hx; try discriminate;
              match type of Hx with
              | context [Qle_bool ?u ?v] =>
                  destruct (Qle_bool u v) eqn:Hd; [|discriminate];
                  apply Qle_bool_iff in Hd
              end; rebuild Hx; fail).
  - (* Exit *)
    unfold leave in Hx; simpl in Hx.
    destruct Hm; simpl in *; try discriminate;
      try (destruct (_ && _); discriminate).
    unfold may_leave in Hx; simpl in Hx.
    destruct (alive x1) eqn:A1; [discriminate|].
    destruct (alive x2) eqn:A2; [discriminate|]. simpl in Hx.
    injection Hx as <-.
    exists (Stopped Returned), [x1; x2], launcher_events, h1, h2; simpl.
    split_and!; auto using main_at.
Qed.

Lemma Inv_run cs : ∀ s s', Inv s → run s cs = Some s' → Inv s'.
Proof.
  induction cs as [|c cs IH]; simpl; intros s s' Hs Hr.
  - congruence.
  - destruct (exec s c) as [s1|] eqn:Hx; [|discriminate].
    eauto using Inv_exec.
Qed.

Lemma reachable_Inv s : reachable s → Inv s.
Proof. intros [cs Hr]. eauto using Inv_run, Inv_init. Qed.

(** ** What the invariant gives *)

(** The lines on standard output interleave those of the two units. *)
Lemma lines_interleaving l :
  Forall (λ e, owned e = true) l →
  interleaving (lines (history 1 l)) (lines (history 2 l)) (lines l).
Proof.
  induction 1 as [|[c [|[|[|t]]] ev] l He Hl IH]; simpl.
  - constructor.
  - unfold owned in He; simpl in He. unfold lines; simpl.
    destruct (line_of _); [discriminate | exact IH].
  - unfold lines; simpl. destruct (line_of _); [constructor|]; exact IH.
  - unfold lines; simpl. destruct (line_of _); [constructor|]; exact IH.
  - discriminate.
Qed.

Lemma unit_at_lines t a d b now x h :
  unit_at t a d b now x h → lines h = [] ∨ lines h = [a] ∨ lines h = [a; b].
Proof. destruct 1; simpl; auto. Qed.

Lemma unit_at_complete t a d b now h :
  unit_at t a d b now (Some (Stopped Returned)) h → lines h = [a; b].
Proof. inversion 1; reflexivity. Qed.

Lemma unit_at_events t a d b now x h :
  unit_at t a d b now (Some x) h →
  x = Stopped Returned → map what h = [Wrote a; Slept d; Wrote b].
Proof. intros H ->. inversion H; reflexivity. Qed.

Lemma unit_at_stopped t a d b now x h :
  unit_at t a d b now (Some x) h → alive x = false → x ≠ Initial →
  forallb (λ e, negb (stream_failure e)) h = true →
  x = Stopped Returned.
Proof. inversion 1; simpl; intros; try congruence; discriminate. Qed.

Lemma normal_history t l :
  forallb (λ e, negb (stream_failure e)) l = true →
  forallb (λ e, negb (stream_failure e)) (history t l) = true.
Proof.
  rewrite !forallb_forall. unfold history.
  intros H e He. apply List.filter_In in He as [He _]. auto.
Qed.

Lemma Inv_stdout s :
  Inv s → interleaving (emitted 1 s) (emitted 2 s) (stdout s).
Proof.
  intros (x0 & xs & h0 & h1 & h2 & Hp & E0 & E1 & E2 & Hm & H1 & H2 & Hl & He).
  now apply lines_interleaving.
Qed.

Lemma Inv_emitted s :
  Inv s →
  (emitted 1 s = [] ∨ emitted 1 s = ["Starting this..."]
   ∨ emitted 1 s = ["Starting this..."; "Did this!"])
  ∧ (emitted 2 s = [] ∨ emitted 2 s = ["Starting that..."]
     ∨ emitted 2 s = ["Starting that..."; "Did that!"]).
Proof.
  intros (x0 & xs & h0 & h1 & h2 & Hp & E0 & E1 & E2 & Hm & H1 & H2 & Hl & He).
  unfold emitted. rewrite E1, E2. eauto using unit_at_lines.
Qed.

Lemma Inv_exited s :
  Inv s → normal s → exit_code s ≠ None →
  emitted 1 s = ["Starting this..."; "Did this!"]
  ∧ emitted 2 s = ["Starting that..."; "Did that!"]
  ∧ map st (pool s) = [Stopped Returned; Stopped Returned; Stopped Returned].
Proof.
  intros (x0 & xs & h0 & h1 & h2 & Hp & E0 & E1 & E2 & Hm & H1 & H2 & Hl & He)
    Hn Hc.
  destruct (exit_code s) as [z|]; [clear Hc | congruence].
  destruct He as (-> & -> & Ha). unfold emitted. rewrite E1, E2, Hp.
  pose proof (normal_history 1 _ Hn) as N1. rewrite E1 in N1.
  pose proof (normal_history 2 _ Hn) as N2. rewrite E2 in N2.
  inversion Hm; subst. simpl in *.
  apply Forall_cons in Ha as [A1 Ha]. apply Forall_cons in Ha as [A2 _].
  assert (x1 = Stopped Returned) as -> by eauto using unit_at_stopped.
  assert (x2 = Stopped Returned) as -> by eauto using unit_at_stopped.
  erewrite !unit_at_complete by eassumption. auto.
Qed.

Lemma Inv_main s th :
  Inv s → pool s !! 0%nat = Some th →
  st th = Stopped Returned ∨ ∃ k, st th = Active k.
Proof.
  intros (x0 & xs & h0 & h1 & h2 & Hp & E0 & E1 & E2 & Hm & H1 & H2 & Hl & He).
  rewrite Hp. simpl. intros [= <-]. destruct Hm; simpl; eauto.
Qed.

Lemma Inv_this s th :
  Inv s → pool s !! 1%nat = Some th →
  target th = this ∧ daemon th = false
  ∧ unit_at 1 "Starting this..." 2 "Did this!" (clock s) (Some (st th))
      (history 1 (log s)).
Proof.
  intros (x0 & xs & h0 & h1 & h2 & Hp & E0 & E1 & E2 & Hm & H1 & H2 & Hl & He).
  rewrite Hp, E1. destruct xs as [|x1 xs]; simpl; [discriminate|].
  intros [= <-]. auto.
Qed.

Lemma Inv_that s th :
  Inv s → pool s !! 2%nat = Some th →
  target th = that ∧ daemon th = false
  ∧ unit_at 2 "Starting that..." 3 "Did that!" (clock s) (Some (st th))
      (history 2 (log s)).
Proof.
  intros (x0 & xs & h0 & h1 & h2 & Hp & E0 & E1 & E2 & Hm & H1 & H2 & Hl & He).
  rewrite Hp, E2. destruct xs as [|x1 [|x2 xs]]; simpl; try discriminate.
  intros [= <-]. auto.
Qed.

Lemma Inv_pool_size s : Inv s → (length (pool s) ≤ 3)%nat.
Proof.
  intros (x0 & xs & h0 & h1 & h2 & Hp & E0 & E1 & E2 & Hm & H1 & H2 & Hl & He).
  rewrite Hp. destruct Hm; simpl; lia.
Qed.

Lemma Inv_daemon s : Inv s → Forall (λ th, daemon th = false) (pool s).
Proof.
  intros (x0 & xs & h0 & h1 & h2 & Hp & E0 & E1 & E2 & Hm & H1 & H2 & Hl & He).
  rewrite Hp. destruct Hm; repeat constructor.
Qed.

Lemma main_at_prefix x0 xs h : main_at x0 xs h → h `prefix_of` launcher_events.
Proof.
  destruct 1; unfold launcher_events; simpl;
    first [ now eexists | apply prefix_nil ].
Qed.

Lemma Inv_launched s : Inv s → launched s `prefix_of` launcher_events.
Proof.
  intros (x0 & xs & h0 & h1 & h2 & Hp & E0 & E1 & E2 & Hm & H1 & H2 & Hl & He).
  unfold launched. rewrite E0. eauto using main_at_prefix.
Qed.

Lemma Inv_launcher_done s :
  Inv s → returned 0 s →
  launched s = launcher_events
  ∧ ∃ x1 x2, pool s = [mk main (Stopped Returned); mk this x1; mk that x2]
             ∧ x1 ≠ Initial ∧ x2 ≠ Initial.
Proof.
  intros (x0 & xs & h0 & h1 & h2 & Hp & E0 & E1 & E2 & Hm & H1 & H2 & Hl & He)
    (th & Hth & Hst).
  rewrite Hp in Hth. simpl in Hth. injection Hth as <-. simpl in Hst.
  subst x0. unfold launched. rewrite E0, Hp. inversion Hm; subst.
  split; [reflexivity|]. now exists x1, x2.
Qed.

Lemma Inv_exit_stopped s :
  Inv s → exit_code s ≠ None →
  exit_code s = Some 0%Z ∧ Forall (λ th, stopped (st th) = true) (pool s).
Proof.
  intros (x0 & xs & h0 & h1 & h2 & Hp & E0 & E1 & E2 & Hm & H1 & H2 & Hl & He)
    Hc.
  destruct (exit_code s) as [z|]; [clear Hc | congruence].
  destruct He as (-> & -> & Ha). split; [reflexivity|]. rewrite Hp.
  inversion Hm; subst; simpl.
  apply Forall_cons in Ha as [A1 Ha]. apply Forall_cons in Ha as [A2 _].
  repeat constructor; simpl.
  - destruct x1; simpl in *; congruence.
  - destruct x2; simpl in *; congruence.
Qed.

Lemma Inv_raised s t th e :
  Inv s → pool s !! t = Some th → st th = Stopped (Raised e) →
  e = OSError
  ∧ ∃ c l, history t (log s) = (l ++ [mkEntry c t (Threw OSError)])%list.
Proof.
  intros Hi Hth Hst. destruct t as [|[|[|t]]].
  - destruct (Inv_main s th Hi Hth) as [H|[k H]]; congruence.
  - destruct (Inv_this s th Hi Hth) as (_ & _ & Hu). rewrite Hst in Hu.
    inversion Hu; subst; split; try reflexivity.
    + now exists c0, [].
    + now exists c2, [mkEntry c0 1 (Wrote "Starting this...");
                      mkEntry c1 1 (Slept 2)].
  - destruct (Inv_that s th Hi Hth) as (_ & _ & Hu). rewrite Hst in Hu.
    inversion Hu; subst; split; try reflexivity.
    + now exists c0, [].
    + now exists c2, [mkEntry c0 2 (Wrote "Starting that...");
                      mkEntry c1 2 (Slept 3)].
  - apply lookup_lt_Some in Hth. apply Inv_pool_size in Hi. lia.
Qed.

Lemma precedes_launcher_events :
  precedes (Spawned 1) (Launched 1) launcher_events
  ∧ precedes (Launched 1) (Spawned 2) launcher_events
  ∧ precedes (Launched 1) (Launched 2) launcher_events.
Proof.
  split_and!; intros pre post E;
    do 4 (destruct pre as [|? pre]; [try discriminate E|];
          try (injection E as <- E); rewrite ?elem_of_cons; auto).
  all: destruct pre; discriminate E.
Qed.

Lemma leave_refused s th :
  th ∈ pool s → daemon th = false → alive (st th) = true → leave s = None.
Proof.
  intros Hin Hd Ha. unfold leave.
  destruct (forallb may_leave (pool s)) eqn:E; [|reflexivity].
  rewrite forallb_forall in E. apply list_elem_of_In in Hin.
  specialize (E th Hin). unfold may_leave in E. rewrite Hd, Ha in E.
  discriminate.
Qed.

Lemma asleep_blocked s t th until k :
  pool s !! t = Some th → st th = Asleep until k →
  exec s (Run t) = None
  ∧ exec s (Fail t) = None
  ∧ (clock s < until → exec s (Wake t) = None).
Proof.
  intros Hth Hst. unfold exec. destruct (exit_code s); [auto|].
  rewrite Hth; simpl. rewrite Hst. split_and!; try reflexivity.
  intros Hlt. destruct (Qle_bool until (clock s)) eqn:E; [|reflexivity].
  apply Qle_bool_iff in E. lra.
Qed.

(** On the logical clock, a unit's completion line is written no earlier
    than its delay after its start line. *)
Lemma completion_after_delay t a d b now x h c0 c2 :
  unit_at t a d b now x h → a ≠ b →
  mkEntry c0 t (Wrote a) ∈ h → mkEntry c2 t (Wrote b) ∈ h → c0 + d <= c2.
Proof.
  intros Hu Hab H0 H2.
  destruct Hu; rewrite ?elem_of_cons, ?elem_of_nil in H0;
    rewrite ?elem_of_cons, ?elem_of_nil in H2.
  all: repeat match goal with
              | H : _ ∨ _ |- _ => destruct H
              | H : False |- _ => destruct H
              | H : mkEntry _ _ _ = mkEntry _ _ _ |- _ => injection H as ?
              end; subst; try congruence; lra.
Qed.

Lemma elem_of_history t e l : e ∈ l → who e = t → e ∈ history t l.
Proof.
  intros He Hw. apply list_elem_of_In. apply list_elem_of_In in He.
  unfold history. apply List.filter_In. split; [exact He|].
  unfold by_thread. now apply Nat.eqb_eq.
Qed.

Lemma reachable_delay s c0 c2 :
  reachable s →
  (mkEntry c0 1 (Wrote "Starting this...") ∈ log s →
   mkEntry c2 1 (Wrote "Did this!") ∈ log s → c0 + 2 <= c2)
  ∧ (mkEntry c0 2 (Wrote "Starting that...") ∈ log s →
     mkEntry c2 2 (Wrote "Did that!") ∈ log s → c0 + 3 <= c2).
Proof.
  intros Hr. apply reachable_Inv in Hr.
  destruct Hr as (x0 & xs & h0 & h1 & h2 & Hp & E0 & E1 & E2 & Hm & H1 & H2
                  & Hl & He).
  subst h1 h2. split; intros Ha Hb.
  - eapply completion_after_delay;
      [exact H1 | discriminate | now apply elem_of_history ..].
  - eapply completion_after_delay;
      [exact H2 | discriminate | now apply elem_of_history ..].
Qed.

(** ** Every run can be completed *)

Lemma work_later now now' f x :
  now <= now' → (work now' f x ≤ work now f x)%nat.
Proof.
  intros Hle. unfold work. destruct x; try lia.
  destruct (Qle_bool until now) eqn:E; [|destruct (Qle_bool until now'); lia].
  apply Qle_bool_iff in E.
  assert (Qle_bool until now' = true) as -> by (apply Qle_bool_iff; lra).
  lia.
Qed.

(** One more step of thread [t], or of the clock, that brings the run
    closer to its end. *)
Ltac closer c :=
  exists c; eexists; split;
  [ simpl; rewrite ?Qle_bool_2, ?Qle_bool_3; reflexivity
  | split;
    [ unfold normal in *; simpl in *;
      rewrite ?Qle_bool_2, ?Qle_bool_3; simpl;
      rewrite ?forallb_app; simpl; rewrite ?andb_true_r; assumption
    | unfold todo; simpl; rewrite ?Qle_bool_2, ?Qle_bool_3; simpl;
      repeat match goal with
             | |- context [Qle_bool ?u ?v] => destruct (Qle_bool u v)
             end;
      lia ] ].

Lemma progress s :
  Inv s → normal s → exit_code s = None →
  ∃ c s', exec s c = Some s' ∧ normal s' ∧ (todo s' < todo s)%nat.
Proof.
  intros (x0 & xs & h0 & h1 & h2 & Hp & E0 & E1 & E2 & Hm & H1 & H2 & Hl & He)
    Hn Hc.
  destruct s as [clk pl lg ec]; simpl in *; subst pl ec.
  destruct Hm; simpl in *.
  1-5: closer (Run 0).
  assert (∀ u f x, Qle_bool u clk = false →
            Qle_bool 0 (u - clk) = true
            ∧ Qle_bool u (clk + (u - clk)) = true
            ∧ (work (clk + (u - clk)) f x ≤ work clk f x)%nat) as Hnap.
  { intros u f x Hq. apply Qle_bool_false in Hq.
    split_and!; [apply Qle_bool_iff; lra .. | apply work_later; lra]. }
  inversion H1; subst; try congruence.
  1,2,4,5: closer (Run 1).
  { match goal with
    | |- context [Asleep ?u _] => destruct (Qle_bool u clk) eqn:Hq;
        [|destruct (Hnap u that x2 Hq) as (Q1 & Q2 & Q3)]
    end.
    - exists (Wake 1); eexists; split; [unfold exec; simpl; rewrite Hq; reflexivity|].
      split; [exact Hn|]. unfold todo; simpl. rewrite Hq. lia.
    - eexists (Tick _); eexists; split; [unfold exec; simpl; rewrite Q1; reflexivity|].
      split; [exact Hn|]. unfold todo; simpl. rewrite Hq, Q2. lia. }
  all: inversion H2; subst; try congruence.
  all: try (closer (Run 2); fail).
  all: try (closer Exit; fail).
  all: match goal with
       | |- context [Asleep ?u _] => destruct (Qle_bool u clk) eqn:Hq;
           [|destruct (Hnap u that Initial Hq) as (Q1 & Q2 & Q3)]
       end.
  all: first
    [ exists (Wake 2); eexists; split; [unfold exec; simpl; rewrite Hq; reflexivity|];
      split; [exact Hn|]; unfold todo; simpl; rewrite Hq; lia
    | eexists (Tick _); eexists; split; [unfold exec; simpl; rewrite Q1; reflexivity|];
      split; [exact Hn|]; unfold todo; simpl; rewrite Hq, Q2; lia ].
Qed.

Lemma can_finish s :
  Inv s → normal s →
  ∃ cs s', run s cs = Some s' ∧ normal s' ∧ exit_code s' ≠ None.
Proof.
  remember (todo s) as n eqn:En. revert s En.
  induction n as [n IH] using lt_wf_ind. intros s -> Hi Hn.
  destruct (exit_code s) as [z|] eqn:Hc.
  - exists [], s. simpl. rewrite Hc. auto.
  - destruct (progress s Hi Hn Hc) as (c & s1 & Hx & Hn1 & Hlt).
    destruct (IH _ Hlt s1 eq_refl (Inv_exec _ _ _ Hi Hx) Hn1)
      as (cs & s' & Hr & Hn' & Hc').
    exists (c :: cs), s'. simpl. rewrite Hx. auto.
Qed.

(** ** What one step does to the log and the clock *)

Lemma exec_log s c s' :
  exec s c = Some s' →
  clock s <= clock s'
  ∧ (log s' = log s
     ∨ ∃ t ev th k,
         log s' = (log s ++ [mkEntry (clock s) t ev])%list
         ∧ pool s !! t = Some th ∧ st th = Active k).
Proof.
  unfold exec. destruct (exit_code s); [discriminate|].
  destruct c as [d|t|t|t|]; simpl.
  - destruct (Qle_bool 0 d) eqn:Hd; [|discriminate]. intros [= <-]; simpl.
    apply Qle_bool_iff in Hd. split; [lra | now left].
  - destruct (pool s !! t) as [th|] eqn:Hth; [simpl | discriminate].
    destruct (st th) as [|p| |] eqn:Hst; try discriminate.
    intros [= <-]. split.
    + destruct p; simpl; repeat case_match; simpl; lra.
    + destruct p; simpl; repeat case_match; simpl; eauto 10.
  - destruct (pool s !! t) as [th|] eqn:Hth; [simpl | discriminate].
    destruct (st th) as [|p| |] eqn:Hst; try discriminate.
    destruct p; try discriminate. intros [= <-]; simpl.
    split; [lra | eauto 10].
  - destruct (pool s !! t) as [th|] eqn:Hth; [simpl | discriminate].
    destruct (st th) as [| |u k|] eqn:Hst; try discriminate.
    destruct (Qle_bool u (clock s)); [|discriminate].
    intros [= <-]; simpl. split; [lra | now left].
  - unfold leave. destruct (forallb may_leave (pool s)); [|discriminate].
    destruct (exit_status s); [simpl | discriminate].
    intros [= <-]; simpl. split; [lra | now left].
Qed.

Lemma since_zero_run cs : ∀ s s', since_zero s → run s cs = Some s' → since_zero s'.
Proof.
  induction cs as [|c cs IH]; simpl; intros s s' Hz Hr.
  - congruence.
  - destruct (exec s c) as [s1|] eqn:Hx; [|discriminate].
    apply (IH s1 s'); [|exact Hr]. destruct Hz as [Hc Hl].
    destruct (exec_log s c s1 Hx) as [Hle [E|(t & ev & th & k & E & _)]];
      unfold since_zero; rewrite E.
    + split; [lra | exact Hl].
    + split; [lra|]. apply Forall_app. split; [exact Hl|].
      repeat constructor. exact Hc.
Qed.

Lemma reachable_since_zero s : reachable s → since_zero s.
Proof.
  intros [cs Hr]. apply (since_zero_run cs init s); [|exact Hr].
  split; [simpl; lra | constructor].
Qed.


(** ** Each thread is started before it acts *)

Lemma launched_in_log l ev :
  ev ∈ map what (history 0 l) →
  ∃ e', e' ∈ l ∧ who e' = 0%nat ∧ what e' = ev.
Proof.
  intros H. apply list_elem_of_In, in_map_iff in H as (e' & Hw & Hin).
  apply List.filter_In in Hin as [Hin Hb]. exists e'.
  split_and!; [now apply list_elem_of_In | now apply Nat.eqb_eq | exact Hw].
Qed.

Lemma Inv_started s t th k :
  Inv s → pool s !! t = Some th → st th = Active k → t ≠ 0%nat →
  ∃ e', e' ∈ log s ∧ who e' = 0%nat ∧ what e' = Launched t.
Proof.
  intros (x0 & xs & h0 & h1 & h2 & Hp & E0 & E1 & E2 & Hm & H1 & H2 & Hl & He)
    Hth Hst Ht.
  rewrite Hp in Hth. apply launched_in_log. rewrite E0.
  destruct Hm; destruct t as [|[|[|t]]]; simpl in *; try congruence;
    try discriminate;
    try (injection Hth as <-; simpl in Hst; discriminate Hst).
  all: apply list_elem_of_In; simpl; tauto.
Qed.

Lemma started_first_snoc l e :
  started_first l →
  (who e ≠ 0%nat →
   ∃ e', e' ∈ l ∧ who e' = 0%nat ∧ what e' = Launched (who e)) →
  started_first (l ++ [e]).
Proof.
  intros Hl He pre e1 post. induction post as [|y post _] using rev_ind.
  - intros [-> ->]%app_inj_tail. exact He.
  - rewrite app_comm_cons, app_assoc. intros [E _]%app_inj_tail.
    exact (Hl pre e1 post E).
Qed.

Lemma started_first_run cs :
  ∀ s s', Inv s → started_first (log s) → run s cs = Some s' →
          started_first (log s').
Proof.
  induction cs as [|c cs IH]; simpl; intros s s' Hi Hs Hr.
  - injection Hr as <-. exact Hs.
  - destruct (exec s c) as [s1|] eqn:Hx; [|discriminate].
    apply (IH s1 s'); [eauto using Inv_exec | | exact Hr].
    destruct (exec_log s c s1 Hx) as [_ [->|(t & ev & th & k & -> & Hth & Hst)]];
      [exact Hs|].
    apply started_first_snoc; [exact Hs|]. simpl. eauto using Inv_started.
Qed.

(** ** Progress, with or without failures *)

Ltac nearer c :=
  exists c; eexists; split;
  [ simpl; rewrite ?Qle_bool_2, ?Qle_bool_3; reflexivity
  | split;
    [ unfold todo; simpl; rewrite ?Qle_bool_2, ?Qle_bool_3; simpl;
      repeat match goal with
             | |- context [Qle_bool ?u ?v] => destruct (Qle_bool u v)
             end;
      lia
    | intros ? ?; discriminate ] ].

Ltac nearer_asleep t clk Hnap :=
  match goal with
  | |- context [Asleep ?u _] =>
      let Hq := fresh "Hq" in
      destruct (Qle_bool u clk) eqn:Hq;
      [ exists (Wake t); eexists; split;
        [ unfold exec; simpl; rewrite Hq; reflexivity
        | split; [unfold todo; simpl; rewrite Hq; lia
                 | intros ? ?; discriminate] ]
      | let Q1 := fresh in
        let Q2 := fresh in
        let Q3 := fresh in
        destruct (Hnap u that Initial Hq) as (Q1 & Q2 & _);
        eexists (Tick _); eexists; split;
        [ unfold exec; simpl; rewrite Q1; reflexivity
        | split;
          [ unfold todo; simpl; rewrite Hq, Q2;
            try match goal with
                | |- context [work _ that ?x] =>
                    destruct (Hnap u that x Hq) as (_ & _ & Q3)
                end;
            lia
          | intros ? ?; discriminate ] ] ]
  end.

(** As [progress], with or without failed writes, and by a step that is not
    a failing write. *)
Lemma progress_quiet s :
  Inv s → exit_code s = None →
  ∃ c s', exec s c = Some s' ∧ (todo s' < todo s)%nat ∧ ∀ t, c ≠ Fail t.
Proof.
  intros (x0 & xs & h0 & h1 & h2 & Hp & E0 & E1 & E2 & Hm & H1 & H2 & Hl & He)
    Hc.
  destruct s as [clk pl lg ec]; simpl in *; subst pl ec.
  destruct Hm; simpl in *.
  1-5: nearer (Run 0).
  assert (∀ u f x, Qle_bool u clk = false →
            Qle_bool 0 (u - clk) = true
            ∧ Qle_bool u (clk + (u - clk)) = true
            ∧ (work (clk + (u - clk)) f x ≤ work clk f x)%nat) as Hnap.
  { intros u f x Hq. apply Qle_bool_false in Hq.
    split_and!; [apply Qle_bool_iff; lra .. | apply work_later; lra]. }
  inversion H1; subst; try congruence.
  1,2,4,5: nearer (Run 1).
  1: nearer_asleep 1%nat clk Hnap.
  all: inversion H2; subst; try congruence.
  all: first [ nearer (Run 2) | nearer Exit | nearer_asleep 2%nat clk Hnap ].
Qed.

Lemma progress_any s :
  Inv s → exit_code s = None →
  ∃ c s', exec s c = Some s' ∧ (todo s' < todo s)%nat.
Proof.
  intros Hi Hc. destruct (progress_quiet s Hi Hc) as (c & s' & Hx & Hlt & _).
  eauto.
Qed.

Lemma can_exit s :
  Inv s → ∃ cs s', run s cs = Some s' ∧ exit_code s' = Some 0%Z.
Proof.
  remember (todo s) as n eqn:En. revert s En.
  induction n as [n IH] using lt_wf_ind. intros s -> Hi.
  destruct (exit_code s) as [z|] eqn:Hc.
  - exists [], s. simpl. split; [reflexivity|].
    destruct (Inv_exit_stopped s Hi) as [E _]; congruence.
  - destruct (progress_any s Hi Hc) as (c & s1 & Hx & Hlt).
    destruct (IH _ Hlt s1 eq_refl (Inv_exec _ _ _ Hi Hx)) as (cs & s' & Hr & Hc').
    exists (c :: cs), s'. simpl. rewrite Hx. auto.
Qed.

(** ** Counting moves *)

Ltac spent Hx :=
  injection Hx as <-; unfold moves_left; simpl; lia.

Lemma moves_exec s c s' :
  Inv s → exec s c = Some s' →
  (moves_left s' + (if is_move c then 1 else 0) ≤ moves_left s)%nat.
Proof.
  intros (x0 & xs & h0 & h1 & h2 & Hp & E0 & E1 & E2 & Hm & H1 & H2 & Hl & He) Hx.
  destruct s as [clk pl lg ec]; simpl in *; subst pl.
  unfold exec in Hx; simpl in Hx.
  destruct ec; [discriminate|].
  destruct c as [d | t | t | t | ].
  - destruct (Qle_bool 0 d); [|discriminate]. spent Hx.
  - destruct Hm; simpl in *;
      destruct t as [|[|[|t]]]; simpl in Hx; try discriminate.
    all: try (spent Hx).
    all: try (open_unit H1 E1; simpl in Hx; try discriminate;
              rewrite ?Qle_bool_2 in Hx; spent Hx).
    all: try (open_unit H2 E2; simpl in Hx; try discriminate;
              rewrite ?Qle_bool_3 in Hx; spent Hx).
  - destruct Hm; simpl in *;
      destruct t as [|[|[|t]]]; simpl in Hx; try discriminate.
    all: try (open_unit H1 E1; simpl in Hx; try discriminate; spent Hx).
    all: try (open_unit H2 E2; simpl in Hx; try discriminate; spent Hx).
  - destruct Hm; simpl in *;
      destruct t as [|[|[|t]]]; simpl in Hx; try discriminate.
    all: try (open_unit H1 E1; simpl in Hx; try discriminate;
              destruct (Qle_bool _ _); [|discriminate]; spent Hx).
    all: try (open_unit H2 E2; simpl in Hx; try discriminate;
              destruct (Qle_bool _ _); [|discriminate]; spent Hx).
  - unfold leave in Hx; simpl in Hx.
    destruct Hm; simpl in *; try discriminate;
      try (destruct (_ && _); discriminate).
    destruct (_ && _); [|discriminate]. spent Hx.
Qed.

Lemma moves_run cs :
  ∀ s s', Inv s → run s cs = Some s' →
          (moves_left s' + moves cs ≤ moves_left s)%nat.
Proof.
  induction cs as [|c cs IH]; simpl; intros s s' Hi Hr.
  - injection Hr as <-. unfold moves; simpl. lia.
  - destruct (exec s c) as [s1|] eqn:Hx; [|discriminate].
    pose proof (moves_exec s c s1 Hi Hx) as H1.
    pose proof (IH s1 s' (Inv_exec _ _ _ Hi Hx) Hr) as H2.
    unfold moves in *; simpl. destruct (is_move c); simpl; lia.
Qed.

(** ** Runs that go on after a failure *)

Lemma exec_failures s c s' :
  exec s c = Some s' → (∀ t, c ≠ Fail t) →
  List.filter stream_failure (log s') = List.filter stream_failure (log s).
Proof.
  unfold exec. destruct (exit_code s); [discriminate|].
  destruct c as [d|t|t|t|]; simpl; intros Hx Hc.
  - destruct (Qle_bool 0 d); [|discriminate]. now injection Hx as <-.
  - destruct (pool s !! t) as [th|]; [simpl in Hx | discriminate].
    destruct (st th) as [|p| |]; try discriminate.
    injection Hx as <-.
    destruct p; simpl; repeat case_match; simpl;
      rewrite ?List.filter_app; simpl; now rewrite ?app_nil_r.
  - now destruct (Hc t).
  - destruct (pool s !! t) as [th|]; [simpl in Hx | discriminate].
    destruct (st th) as [| |u k|]; try discriminate.
    destruct (Qle_bool u (clock s)); [|discriminate]. now injection Hx as <-.
  - unfold leave in Hx. destruct (forallb may_leave (pool s)); [|discriminate].
    destruct (exit_status s); [simpl in Hx | discriminate].
    now injection Hx as <-.
Qed.

Lemma can_exit_quiet s :
  Inv s →
  ∃ cs s', run s cs = Some s' ∧ exit_code s' ≠ None
           ∧ List.filter stream_failure (log s')
             = List.filter stream_failure (log s).
Proof.
  remember (todo s) as n eqn:En. revert s En.
  induction n as [n IH] using lt_wf_ind. intros s -> Hi.
  destruct (exit_code s) as [z|] eqn:Hc.
  - exists [], s. simpl. rewrite Hc. auto.
  - destruct (progress_quiet s Hi Hc) as (c & s1 & Hx & Hlt & Hq).
    destruct (IH _ Hlt s1 eq_refl (Inv_exec _ _ _ Hi Hx))
      as (cs & s' & Hr & Hc' & Hf).
    exists (c :: cs), s'. simpl. rewrite Hx.
    rewrite Hf, (exec_failures s c s1 Hx Hq). auto.
Qed.

Lemma filter_history t l :
  List.filter stream_failure (history t l)
  = history t (List.filter stream_failure l).
Proof.
  unfold history. induction l as [|e l IH]; simpl; [reflexivity|].
  destruct (by_thread t e) eqn:Hb, (stream_failure e) eqn:Hf; simpl;
    rewrite ?Hb, ?Hf, IH; reflexivity.
Qed.

Lemma unfailed_kept t s s' :
  List.filter stream_failure (log s') = List.filter stream_failure (log s) →
  unfailed t s → unfailed t s'.
Proof. unfold unfailed. rewrite !filter_history. now intros ->. Qed.

Lemma unit_at_unfailed t a d b now x h :
  unit_at t a d b now (Some x) h →
  List.filter stream_failure h = [] → alive x = false → x ≠ Initial →
  x = Stopped Returned ∧ lines h = [a; b].
Proof. inversion 1; simpl; intros; try congruence; try discriminate; auto. Qed.

Lemma Inv_exit_unfailed s :
  Inv s → exit_code s ≠ None →
  (unfailed 1 s →
   returned 1 s ∧ emitted 1 s = ["Starting this..."; "Did this!"])
  ∧ (unfailed 2 s →
     returned 2 s ∧ emitted 2 s = ["Starting that..."; "Did that!"]).
Proof.
  intros (x0 & xs & h0 & h1 & h2 & Hp & E0 & E1 & E2 & Hm & H1 & H2 & Hl & He)
    Hc.
  destruct (exit_code s) as [z|]; [clear Hc | congruence].
  destruct He as (-> & -> & Ha). unfold unfailed, emitted, returned.
  rewrite E1, E2, Hp. inversion Hm; subst. simpl in *.
  apply Forall_cons in Ha as [A1 Ha]. apply Forall_cons in Ha as [A2 _].
  split; intros Hu.
  - destruct (unit_at_unfailed _ _ _ _ _ _ _ H1 Hu A1) as [-> Hl1]; [assumption|].
    split; [now eexists | exact Hl1].
  - destruct (unit_at_unfailed _ _ _ _ _ _ _ H2 Hu A2) as [-> Hl2]; [assumption|].
    split; [now eexists | exact Hl2].
Qed.

Lemma can_carry_on s :
  Inv s →
  ∃ cs s', run s cs = Some s' ∧ exit_code s' ≠ None
    ∧ (unfailed 1 s →
       returned 1 s' ∧ emitted 1 s' = ["Starting this..."; "Did this!"])
    ∧ (unfailed 2 s →
       returned 2 s' ∧ emitted 2 s' = ["Starting that..."; "Did that!"]).
Proof.
  intros Hi. destruct (can_exit_quiet s Hi) as (cs & s' & Hr & Hc & Hf).
  exists cs, s'. split_and!; [exact Hr | exact Hc | |];
    intros Hu; apply (unfailed_kept _ s s' Hf) in Hu;
    now apply (Inv_exit_unfailed s' (Inv_run cs s s' Hi Hr) Hc).
Qed.

(** ** Whole invocations *)

Lemma unit_at_on_script t a d b now x h :
  unit_at t a d b now x h → on_script a d b (map what h).
Proof.
  unfold on_script, unit_events.
  destruct 1; simpl;
    first [ left; apply prefix_nil
          | left; now eexists
          | right; exists []; split; [apply prefix_nil | reflexivity]
          | right; exists [Wrote a; Slept d]; split; [now eexists | reflexivity] ].
Qed.

Lemma Inv_on_script s :
  Inv s →
  on_script "Starting this..." 2 "Did this!" (events 1 s)
  ∧ on_script "Starting that..." 3 "Did that!" (events 2 s).
Proof.
  intros (x0 & xs & h0 & h1 & h2 & Hp & E0 & E1 & E2 & Hm & H1 & H2 & Hl & He).
  unfold events. rewrite E1, E2. eauto using unit_at_on_script.
Qed.

Lemma returned_of_states s t :
  map st (pool s) !! t = Some (Stopped Returned) → returned t s.
Proof.
  unfold returned. generalize (pool s) as l. intros l. revert t.
  induction l as [|th l IH]; intros [|t]; simpl; try discriminate.
  - intros [= H]. now exists th.
  - apply IH.
Qed.

Lemma can_return s :
  Inv s → normal s →
  ∃ cs s', run s cs = Some s' ∧ normal s' ∧ exit_code s' ≠ None
           ∧ returned 1 s' ∧ returned 2 s'.
Proof.
  intros Hi Hn. destruct (can_finish s Hi Hn) as (cs & s' & Hr & Hn' & Hc).
  destruct (Inv_exited s' (Inv_run cs s s' Hi Hr) Hn' Hc) as (_ & _ & Hst).
  exists cs, s'. split_and!; auto; apply returned_of_states; now rewrite Hst.
Qed.

Lemma Inv_second_after_first s th2 :
  Inv s → pool s !! 2%nat = Some th2 →
  ∃ th1, pool s !! 1%nat = Some th1 ∧ st th1 ≠ Initial.
Proof.
  intros (x0 & xs & h0 & h1 & h2 & Hp & E0 & E1 & E2 & Hm & H1 & H2 & Hl & He).
  rewrite Hp. destruct Hm; simpl; try discriminate; intros _; eauto.
Qed.

Lemma Inv_exit_launcher s : Inv s → exit_code s ≠ None → returned 0 s.
Proof.
  intros (x0 & xs & h0 & h1 & h2 & Hp & E0 & E1 & E2 & Hm & H1 & H2 & Hl & He)
    Hc.
  destruct (exit_code s) as [z|]; [clear Hc | congruence].
  destruct He as (_ & -> & _). exists (mk main (Stopped Returned)).
  now rewrite Hp.
Qed.

Lemma can_launch s :
  Inv s →
  ∃ cs s', run s cs = Some s' ∧ launched s' = launcher_events
    ∧ ∃ x1 x2, pool s' = [mk main (Stopped Returned); mk this x1; mk that x2]
               ∧ x1 ≠ Initial ∧ x2 ≠ Initial.
Proof.
  intros Hi. destruct (can_exit_quiet s Hi) as (cs & s' & Hr & Hc & _).
  pose proof (Inv_run cs s s' Hi Hr) as Hi'.
  destruct (Inv_launcher_done s' Hi' (Inv_exit_launcher s' Hi' Hc)) as [Hl Hp].
  exists cs, s'. auto.
Qed.

(** ** The sample runs *)

Example launcher_first_output :
  stdout (after launcher_first) =
  ["Starting this..."; "Starting that..."; "Did this!"; "Did that!"].
Proof. reflexivity. Qed.

Example launcher_first_history :
  map what (history 1 (log (after launcher_first))) =
    [Wrote "Starting this..."; Slept 2; Wrote "Did this!"]
  ∧ map st (pool (after launcher_first)) =
    [Stopped Returned; Stopped Returned; Stopped Returned].
Proof. split; reflexivity. Qed.

Example units_first_output :
  stdout (after units_first) =
  ["Starting this..."; "Did this!"; "Starting that..."; "Did that!"].
Proof. reflexivity. Qed.

Example all_in_flight_asleep :
  map st (pool (after all_in_flight))
  = [Active ret; Asleep (0 + 2) (print "Did this!" ret);
     Asleep (0 + 3) (print "Did that!" ret)]
  ∧ exec (after all_in_flight) (Wake 1) = None
  ∧ exec (after (all_in_flight ++ [Tick 2])) (Wake 1) ≠ None
  ∧ exec (after (all_in_flight ++ [Tick 2])) (Wake 2) = None.
Proof. split_and!; try reflexivity. vm_compute. discriminate. Qed.

Example units_first_stamps :
  map (λ e, (when e, what e)) (log (after units_first))
  = [(0, Spawned 1); (0, Launched 1);
     (0, Wrote "Starting this..."); (0, Slept 2);
     (0 + 5, Wrote "Did this!");
     (0 + 5, Spawned 2); (0 + 5, Launched 2);
     (0 + 5, Wrote "Starting that..."); (0 + 5, Slept 3);
     (0 + 5 + 3, Wrote "Did that!")].
Proof. reflexivity. Qed.

Example launcher_first_stamps :
  map when (log (after launcher_first))
  = [0; 0; 0; 0; 0; 0; 0; 0; 0 + 2; 0 + 2 + 1].
Proof. reflexivity. Qed.

Example that_first_log :
  map (λ e, (who e, what e)) (log (after that_first))
  = [(0, Spawned 1); (0, Launched 1); (0, Spawned 2); (0, Launched 2);
     (2, Wrote "Starting that..."); (1, Wrote "Starting this...")]%nat.
Proof. reflexivity. Qed.

Example broken_midway_state :
  map st (pool (after broken_midway))
  = [Active (Thread that (λ t2, start t2 ret)); Stopped (Raised OSError)]
  ∧ exit_code (after broken_midway) = None.
Proof. split; reflexivity. Qed.

Example launcher_first_moves : moves launcher_first = 16%nat.
Proof. reflexivity. Qed.

(** ** The units *)

(** C1, as stated, fails on the word exactly: in the run [overslept] the
    thread of [this] asks for a sleep of 2 at time 0 and is still asleep
    when the clock shows 1000; it prints its completion line only then. *)
Lemma sleep_can_last_longer :
  reachable (after overslept)
  ∧ returned 1 (after overslept)
  ∧ history 1 (log (after overslept))
    = [mkEntry 0 1 (Wrote "Starting this..."); mkEntry 0 1 (Slept 2);
       mkEntry (0 + 1000) 1 (Wrote "Did this!")]
  ∧ map st (pool (after (take 5 overslept)))
    = [Active (Thread that (λ t2, start t2 ret));
       Asleep (0 + 2) (print "Did this!" ret)]
  ∧ clock (after (take 5 overslept)) == 1000.
Proof.
  split_and!; try reflexivity; [apply reachable_after|].
  apply returned_of_states. reflexivity.
Qed.

(** C1, amended.  Whatever the schedule, what the thread of [this] has done
    is an initial part of: write [Starting this...], ask to sleep for 2,
    write [Did this!] (cut short by a failed write at most), and the whole
    of it once the thread has returned; likewise for [that] with 3.  Inside
    the sleep the thread takes no step before the clock has advanced by the
    delay it asked for, so the completion line comes no sooner than that;
    it may come later.  Runs in which no write fails can always be
    continued until both units have returned, and [launcher_first] is one
    that has. *)
Theorem unit_three_steps :
  (∀ s, reachable s →
     on_script "Starting this..." 2 "Did this!" (events 1 s)
     ∧ on_script "Starting that..." 3 "Did that!" (events 2 s)
     ∧ (invoked 1 this "Starting this..." 2 "Did this!" s
        ∧ suspended 1 "Starting this..." 2 s)
     ∧ (invoked 2 that "Starting that..." 3 "Did that!" s
        ∧ suspended 2 "Starting that..." 3 s))
  ∧ (∀ s, reachable s → normal s →
       ∃ cs s', run s cs = Some s' ∧ normal s' ∧ exit_code s' ≠ None
                ∧ returned 1 s' ∧ returned 2 s')
  ∧ (reachable (after launcher_first)
     ∧ returned 1 (after launcher_first)
     ∧ returned 2 (after launcher_first)
     ∧ events 1 (after launcher_first)
       = unit_events "Starting this..." 2 "Did this!"
     ∧ events 2 (after launcher_first)
       = unit_events "Starting that..." 3 "Did that!")
  ∧ (reachable (after all_in_flight)
     ∧ map st (pool (after all_in_flight))
       = [Active ret; Asleep (0 + 2) (print "Did this!" ret);
          Asleep (0 + 3) (print "Did that!" ret)]
     ∧ exec (after all_in_flight) (Wake 1) = None
     ∧ exec (after (all_in_flight ++ [Tick 2])) (Wake 1) ≠ None).
Proof.
  split_and!; try apply reachable_after; try reflexivity;
    try (apply returned_of_states; reflexivity).
  - intros s Hr. apply reachable_Inv in Hr.
    destruct (Inv_on_script s Hr) as [S1 S2]. split_and!; auto.
    + intros th Hth Hst.
      destruct (Inv_this s th Hr Hth) as (Ht & _ & Hu). split; [exact Ht|].
      rewrite Hst in Hu. inversion Hu; subst.
      do 3 eexists; split_and!; [reflexivity|..]; eassumption.
    + intros th until k Hth Hst. split; [|eauto using asleep_blocked].
      destruct (Inv_this s th Hr Hth) as (_ & _ & Hu).
      rewrite Hst in Hu. inversion Hu; subst. now do 2 eexists.
    + intros th Hth Hst.
      destruct (Inv_that s th Hr Hth) as (Ht & _ & Hu). split; [exact Ht|].
      rewrite Hst in Hu. inversion Hu; subst.
      do 3 eexists; split_and!; [reflexivity|..]; eassumption.
    + intros th until k Hth Hst. split; [|eauto using asleep_blocked].
      destruct (Inv_that s th Hr Hth) as (_ & _ & Hu).
      rewrite Hst in Hu. inversion Hu; subst. now do 2 eexists.
  - intros s Hr Hn. apply can_return; [now apply reachable_Inv | exact Hn].
  - vm_compute. discriminate.
Qed.

(** ** Standard output *)



(** C3. In every reachable state, whether or not a write has failed, each
    occurrence of a unit's completion line on standard output has that
    unit's start line before it. *)
Theorem start_before_completion s :
  reachable s →
  precedes "Starting this..." "Did this!" (stdout s)
  ∧ precedes "Starting that..." "Did that!" (stdout s).
Proof.
  intros Hr. apply reachable_Inv in Hr.
  pose proof (Inv_stdout s Hr) as Hm.
  destruct (Inv_emitted s Hr) as [[E1|[E1|E1]] [E2|[E2|E2]]];
    rewrite E1, E2 in Hm;
    (split;
     [ apply (precedes_interleaving _ _ _ _ _ Hm)
     | apply (precedes_interleaving _ _ _ _ _ (interleaving_sym _ _ _ Hm)) ]).
  all: first
    [ apply precedes_nil
    | apply precedes_single; discriminate
    | apply precedes_pair; discriminate
    | not_listed ].
Qed.

Lemma start_before_completion_witness :
  precedes "Starting this..." "Did this!" (stdout (after launcher_first))
  ∧ precedes "Starting that..." "Did that!" (stdout (after launcher_first)).
Proof. apply start_before_completion, reachable_after. Defined.

(** C4. In every reachable state each unit's start line occurs at most once
    on standard output; once the process has exited after a run in which no
    write failed, each occurs exactly once.  Such a run can always be
    continued to that point, and [launcher_first] is one that got there. *)
Theorem start_lines_once :
  (∀ s, reachable s →
     (occurrences "Starting this..." (stdout s) ≤ 1
      ∧ occurrences "Starting that..." (stdout s) ≤ 1)%nat
     ∧ (normal s → exit_code s ≠ None →
        occurrences "Starting this..." (stdout s) = 1%nat
        ∧ occurrences "Starting that..." (stdout s) = 1%nat))
  ∧ (∀ s, reachable s → normal s →
       ∃ cs s', run s cs = Some s' ∧ normal s' ∧ exit_code s' ≠ None
                ∧ occurrences "Starting this..." (stdout s') = 1%nat
                ∧ occurrences "Starting that..." (stdout s') = 1%nat)
  ∧ (reachable (after launcher_first)
     ∧ normal (after launcher_first)
     ∧ exit_code (after launcher_first) = Some 0%Z
     ∧ occurrences "Starting this..." (stdout (after launcher_first)) = 1%nat
     ∧ occurrences "Starting that..." (stdout (after launcher_first)) = 1%nat).
Proof.
  assert (∀ s, Inv s → normal s → exit_code s ≠ None →
            occurrences "Starting this..." (stdout s) = 1%nat
            ∧ occurrences "Starting that..." (stdout s) = 1%nat) as Hexit.
  { intros s Hi Hn Hc. pose proof (Inv_stdout s Hi) as Hm.
    destruct (Inv_exited s Hi Hn Hc) as (E1 & E2 & _).
    rewrite !(occurrences_interleaving _ _ _ _ Hm), E1, E2.
    split; reflexivity. }
  split_and!; try apply reachable_after; try reflexivity.
  - intros s Hr. apply reachable_Inv in Hr. split; [|now apply Hexit].
    pose proof (Inv_stdout s Hr) as Hm.
    rewrite !(occurrences_interleaving _ _ _ _ Hm).
    destruct (Inv_emitted s Hr) as [[E1|[E1|E1]] [E2|[E2|E2]]];
      rewrite E1, E2; vm_compute; auto.
  - intros s Hr Hn. apply reachable_Inv in Hr.
    destruct (can_finish s Hr Hn) as (cs & s' & Hrun & Hn' & Hc).
    destruct (Hexit s' (Inv_run cs s s' Hr Hrun) Hn' Hc) as [O1 O2].
    exists cs, s'. auto.
Qed.

(** ** The launcher *)

(** C5. The launcher builds exactly two threads, the first bound to [this]
    and the second to [that], and starts both; it is never blocked (its
    thread is either running or has returned, never asleep).  It waits for
    neither: it can reach its end before either unit has made a step.  The
    three contexts advance independently: both units can be asleep at once
    while the launcher has not yet returned, a unit can print before the
    launcher has built the other thread, and either unit can print first. *)
Theorem launcher_contract :
  (∀ s, reachable s →
     (length (pool s) ≤ 3)%nat
     ∧ (∀ th, pool s !! 0%nat = Some th →
          st th = Stopped Returned ∨ ∃ k, st th = Active k)
     ∧ (returned 0 s →
        launched s = [Spawned 1; Launched 1; Spawned 2; Launched 2]
        ∧ ∃ x1 x2,
            pool s = [mk main (Stopped Returned); mk this x1; mk that x2]
            ∧ x1 ≠ Initial ∧ x2 ≠ Initial))
  ∧ (reachable (after launcher_only)
     ∧ map st (pool (after launcher_only))
       = [Stopped Returned; Active this; Active that]
     ∧ log (after launcher_only)
       = [mkEntry 0 0 (Spawned 1); mkEntry 0 0 (Launched 1);
          mkEntry 0 0 (Spawned 2); mkEntry 0 0 (Launched 2)])
  ∧ (reachable (after all_in_flight)
     ∧ map st (pool (after all_in_flight))
       = [Active ret; Asleep (0 + 2) (print "Did this!" ret);
          Asleep (0 + 3) (print "Did that!" ret)])
  ∧ (reachable (after unit_overtakes)
     ∧ map st (pool (after unit_overtakes))
       = [Active (Thread that (λ t2, start t2 ret));
          Active (time_sleep 2 (print "Did this!" ret))]
     ∧ stdout (after unit_overtakes) = ["Starting this..."])
  ∧ (reachable (after that_first)
     ∧ stdout (after that_first) = ["Starting that..."; "Starting this..."]).
Proof.
  split_and!; try apply reachable_after; try reflexivity.
  intros s Hr. apply reachable_Inv in Hr.
  split_and!; eauto using Inv_pool_size, Inv_main, Inv_launcher_done.
Qed.

(** C8. In every reachable state the main thread's own history is an initial
    part of: build thread 1, start thread 1, build thread 2, start thread 2,
    where thread 1 is bound to [this] and thread 2 to [that]; and whenever
    the thread of [that] exists, the thread of [this] has been started.  The
    launcher does get there: from every reachable state the run can be
    continued until it has built and started both, and there is a state in
    which the thread of [this] is running while the thread of [that] has
    not been built. *)
Theorem this_started_before_that :
  (∀ s, reachable s →
     launched s `prefix_of` [Spawned 1; Launched 1; Spawned 2; Launched 2]
     ∧ (∀ th, pool s !! 1%nat = Some th → target th = this)
     ∧ (∀ th, pool s !! 2%nat = Some th → target th = that)
     ∧ precedes (Spawned 1) (Launched 1) (launched s)
     ∧ precedes (Launched 1) (Spawned 2) (launched s)
     ∧ precedes (Launched 1) (Launched 2) (launched s)
     ∧ (∀ th2, pool s !! 2%nat = Some th2 →
          ∃ th1, pool s !! 1%nat = Some th1 ∧ st th1 ≠ Initial))
  ∧ (∀ s, reachable s →
       ∃ cs s', run s cs = Some s'
         ∧ launched s' = [Spawned 1; Launched 1; Spawned 2; Launched 2]
         ∧ ∃ x1 x2,
             pool s' = [mk main (Stopped Returned); mk this x1; mk that x2]
             ∧ x1 ≠ Initial ∧ x2 ≠ Initial)
  ∧ (reachable (after (take 2 launcher_only))
     ∧ map st (pool (after (take 2 launcher_only)))
       = [Active (Thread that (λ t2, start t2 ret)); Active this]
     ∧ launched (after (take 2 launcher_only)) = [Spawned 1; Launched 1])
  ∧ (reachable (after launcher_only)
     ∧ map st (pool (after launcher_only))
       = [Stopped Returned; Active this; Active that]
     ∧ launched (after launcher_only)
       = [Spawned 1; Launched 1; Spawned 2; Launched 2]).
Proof.
  split_and!; try apply reachable_after; try reflexivity.
  - intros s Hr. apply reachable_Inv in Hr.
    pose proof (Inv_launched s Hr) as Hp.
    destruct precedes_launcher_events as (P1 & P2 & P3).
    split_and!; eauto using precedes_prefix, Inv_second_after_first.
    + intros th Hth. now destruct (Inv_this s th Hr Hth).
    + intros th Hth. now destruct (Inv_that s th Hr Hth).
  - intros s Hr. now apply can_launch, reachable_Inv.
Qed.

(** ** A failed write *)

(** C6, as stated, fails: after the first write of [this] has raised, the
    launcher still builds and starts the second thread, [that] prints both
    of its lines, and the process exits with status 0. *)
Lemma stream_failure_not_fatal :
  reachable (after broken_start)
  ∧ map (λ e, (who e, what e)) (log (after broken_start))
    = [(0, Spawned 1); (0, Launched 1); (1, Threw OSError);
       (0, Spawned 2); (0, Launched 2);
       (2, Wrote "Starting that..."); (2, Slept 3); (2, Wrote "Did that!")]%nat
  ∧ map st (pool (after broken_start))
    = [Stopped Returned; Stopped (Raised OSError); Stopped Returned]
  ∧ exit_code (after broken_start) = Some 0%Z.
Proof. split_and!; [apply reachable_after | reflexivity ..]. Qed.

(** C6, amended.  While no write fails no thread raises.  A thread that has
    raised did so from a failed write ([OSError]), and the failure is the
    last thing it did: the unit neither catches it nor prints again.  The
    failure ends that thread only: the run can always be continued, without
    further failure, until the process exits, and every unit none of whose
    writes had failed then has returned with both of its lines printed.  In
    [broken_midway] the first write of [this] has failed and [that] is yet
    to be built. *)
Theorem stream_failure_contained :
  (∀ s, reachable s →
     (normal s →
      ∀ t th e, pool s !! t = Some th → st th ≠ Stopped (Raised e))
     ∧ (∀ t th e, pool s !! t = Some th → st th = Stopped (Raised e) →
          e = OSError
          ∧ ∃ c l, history t (log s)
                   = (l ++ [mkEntry c t (Threw OSError)])%list)
     ∧ (∃ cs s', run s cs = Some s' ∧ exit_code s' ≠ None
          ∧ (unfailed 1 s →
             returned 1 s'
             ∧ emitted 1 s' = ["Starting this..."; "Did this!"])
          ∧ (unfailed 2 s →
             returned 2 s'
             ∧ emitted 2 s' = ["Starting that..."; "Did that!"])))
  ∧ (reachable (after broken_midway)
     ∧ map st (pool (after broken_midway))
       = [Active (Thread that (λ t2, start t2 ret));
          Stopped (Raised OSError)]
     ∧ events 1 (after broken_midway) = [Threw OSError]
     ∧ unfailed 2 (after broken_midway)).
Proof.
  split_and!; try apply reachable_after; try reflexivity.
  intros s Hr. apply reachable_Inv in Hr. split_and!.
  - intros Hn t th e Hth Hst.
    destruct (Inv_raised s t th e Hr Hth Hst) as (_ & c & l & Hh).
    apply (normal_history t) in Hn. rewrite Hh, forallb_app in Hn.
    simpl in Hn. now rewrite andb_false_r in Hn.
  - eauto using Inv_raised.
  - now apply can_carry_on.
Qed.

(** ** Process exit *)

(** C9. Every thread of a reachable state is a non-daemon thread, so the
    interpreter refuses to exit while any of them is alive: once the process
    has exited every thread has stopped, and after a run in which no write
    failed standard output holds all four lines.  Such a run can always be
    continued until the process exits. *)
Theorem exit_waits_for_units s :
  reachable s →
  Forall (λ th, daemon th = false) (pool s)
  ∧ (∀ th, th ∈ pool s → alive (st th) = true → exec s Exit = None)
  ∧ (exit_code s ≠ None →
     Forall (λ th, stopped (st th) = true) (pool s)
     ∧ (normal s →
        interleaving ["Starting this..."; "Did this!"]
          ["Starting that..."; "Did that!"] (stdout s)))
  ∧ (normal s →
     ∃ cs s', run s cs = Some s' ∧ normal s' ∧ exit_code s' ≠ None).
Proof.
  intros Hr. pose proof (reachable_Inv s Hr) as Hi.
  pose proof (Inv_daemon s Hi) as Hd. split_and!.
  - exact Hd.
  - intros th Hin Ha. unfold exec.
    destruct (exit_code s); [reflexivity|].
    rewrite Forall_forall in Hd. eauto using leave_refused.
  - intros Hc. split.
    + now apply Inv_exit_stopped.
    + intros Hn. destruct (Inv_exited s Hi Hn Hc) as (E1 & E2 & _).
      pose proof (Inv_stdout s Hi) as Hm. now rewrite E1, E2 in Hm.
  - now apply can_finish.
Qed.

Lemma exit_waits_for_units_witness :
  Forall (λ th, daemon th = false) (pool (after launcher_first))
  ∧ (∀ th, th ∈ pool (after launcher_first) → alive (st th) = true →
       exec (after launcher_first) Exit = None)
  ∧ (exit_code (after launcher_first) ≠ None →
     Forall (λ th, stopped (st th) = true) (pool (after launcher_first))
     ∧ (normal (after launcher_first) →
        interleaving ["Starting this..."; "Did this!"]
          ["Starting that..."; "Did that!"] (stdout (after launcher_first))))
  ∧ (normal (after launcher_first) →
     ∃ cs s', run (after launcher_first) cs = Some s' ∧ normal s'
              ∧ exit_code s' ≠ None).
Proof. apply exit_waits_for_units, reachable_after. Defined.

(** ** Two runs of one unit *)

(** C10. Take any two reachable states, of one run or of two.  For each
    unit, the lines it has printed in one are an initial part of those it
    has printed in the other; and where the unit has returned in both, it
    has done the same things and printed the same lines in both. *)
Theorem unit_output_deterministic s s' :
  reachable s → reachable s' →
  (emitted 1 s `prefix_of` emitted 1 s' ∨ emitted 1 s' `prefix_of` emitted 1 s)
  ∧ (emitted 2 s `prefix_of` emitted 2 s' ∨ emitted 2 s' `prefix_of` emitted 2 s)
  ∧ (returned 1 s → returned 1 s' →
     map what (history 1 (log s)) = map what (history 1 (log s'))
     ∧ emitted 1 s = emitted 1 s')
  ∧ (returned 2 s → returned 2 s' →
     map what (history 2 (log s)) = map what (history 2 (log s'))
     ∧ emitted 2 s = emitted 2 s').
Proof.
  intros Hr Hr'. apply reachable_Inv in Hr, Hr'.
  destruct (Inv_emitted s Hr) as [L1 L2].
  destruct (Inv_emitted s' Hr') as [L1' L2'].
  split_and!; eauto using prefix_comparable.
  - intros (th & Hth & Hst) (th' & Hth' & Hst').
    destruct (Inv_this s th Hr Hth) as (_ & _ & Hu).
    destruct (Inv_this s' th' Hr' Hth') as (_ & _ & Hu').
    unfold emitted. rewrite Hst in Hu. rewrite Hst' in Hu'.
    rewrite (unit_at_events _ _ _ _ _ _ _ Hu eq_refl).
    rewrite (unit_at_events _ _ _ _ _ _ _ Hu' eq_refl).
    now rewrite (unit_at_complete _ _ _ _ _ _ Hu),
      (unit_at_complete _ _ _ _ _ _ Hu').
  - intros (th & Hth & Hst) (th' & Hth' & Hst').
    destruct (Inv_that s th Hr Hth) as (_ & _ & Hu).
    destruct (Inv_that s' th' Hr' Hth') as (_ & _ & Hu').
    unfold emitted. rewrite Hst in Hu. rewrite Hst' in Hu'.
    rewrite (unit_at_events _ _ _ _ _ _ _ Hu eq_refl).
    rewrite (unit_at_events _ _ _ _ _ _ _ Hu' eq_refl).
    now rewrite (unit_at_complete _ _ _ _ _ _ Hu),
      (unit_at_complete _ _ _ _ _ _ Hu').
Qed.

Lemma unit_output_deterministic_witness :
  (emitted 1 (after launcher_first) `prefix_of` emitted 1 (after units_first)
   ∨ emitted 1 (after units_first) `prefix_of` emitted 1 (after launcher_first))
  ∧ (emitted 2 (after launcher_first) `prefix_of` emitted 2 (after units_first)
     ∨ emitted 2 (after units_first) `prefix_of` emitted 2 (after launcher_first))
  ∧ (returned 1 (after launcher_first) → returned 1 (after units_first) →
     map what (history 1 (log (after launcher_first)))
       = map what (history 1 (log (after units_first)))
     ∧ emitted 1 (after launcher_first) = emitted 1 (after units_first))
  ∧ (returned 2 (after launcher_first) → returned 2 (after units_first) →
     map what (history 2 (log (after launcher_first)))
       = map what (history 2 (log (after units_first)))
     ∧ emitted 2 (after launcher_first) = emitted 2 (after units_first)).
Proof. apply unit_output_deterministic; apply reachable_after. Defined.

(** ** Time *)

(** X1. On the logical clock, whatever the schedule, the completion line of
    [this] is written no sooner than 2 after its start line, and that of
    [that] no sooner than 3 after its start line. *)
Theorem completion_no_sooner s :
  reachable s →
  (∀ c0 c2,
     mkEntry c0 1 (Wrote "Starting this...") ∈ log s →
     mkEntry c2 1 (Wrote "Did this!") ∈ log s → c0 + 2 <= c2)
  ∧ (∀ c0 c2,
       mkEntry c0 2 (Wrote "Starting that...") ∈ log s →
       mkEntry c2 2 (Wrote "Did that!") ∈ log s → c0 + 3 <= c2).
Proof.
  intros Hr. split; intros c0 c2; now apply (reachable_delay s c0 c2 Hr).
Qed.

Lemma completion_no_sooner_witness :
  (∀ c0 c2,
     mkEntry c0 1 (Wrote "Starting this...") ∈ log (after units_first) →
     mkEntry c2 1 (Wrote "Did this!") ∈ log (after units_first) →
     c0 + 2 <= c2)
  ∧ (∀ c0 c2,
       mkEntry c0 2 (Wrote "Starting that...") ∈ log (after units_first) →
       mkEntry c2 2 (Wrote "Did that!") ∈ log (after units_first) →
       c0 + 3 <= c2).
Proof. apply completion_no_sooner, reachable_after. Defined.

(** X2. A run in which no write failed is over no sooner than 3 after it
    began, the longer of the two sleeps; and 3 is enough, because the two
    sleeps can overlap: the run [launcher_first] is over at 3. *)
Theorem clean_run_lasts_three :
  (∀ s, reachable s → normal s → exit_code s ≠ None → 3 <= clock s)
  ∧ (reachable (after launcher_first)
     ∧ normal (after launcher_first)
     ∧ exit_code (after launcher_first) = Some 0%Z
     ∧ clock (after launcher_first) == 3).
Proof.
  split; [|split_and!; [apply reachable_after | reflexivity ..]].
  intros s Hr Hn Hc.
  destruct (reachable_since_zero s Hr) as [_ Hz].
  apply reachable_Inv in Hr.
  destruct (Inv_exited s Hr Hn Hc) as (_ & _ & Hst).
  destruct (pool s) as [|t0 [|t1 [|t2 [|]]]] eqn:Hp; try discriminate.
  injection Hst as _ _ H2.
  destruct (Inv_that s t2 Hr) as (_ & _ & Hu); [now rewrite Hp|].
  rewrite H2 in Hu. inversion Hu; subst.
  assert (mkEntry c1 2 (Slept 3) ∈ history 2 (log s)) as Hin.
  { match goal with H : _ = history 2 (log s) |- _ => rewrite <- H end.
    apply list_elem_of_further, list_elem_of_here. }
  apply list_elem_of_In, List.filter_In in Hin as [Hin _].
  rewrite Forall_forall in Hz. apply list_elem_of_In, Hz in Hin.
  simpl in Hin. lra.
Qed.

(** ** What standard output can hold *)




(** ** No output before the start *)

(** X4. Whatever the schedule, everything a unit's thread does, its start
    line included, comes in the log after the launcher's [start] of that
    thread: no line of [this] before [t1.start()], none of [that] before
    [t2.start()]. *)
Theorem nothing_before_start s : reachable s → started_first (log s).
Proof.
  intros [cs Hr]. apply (started_first_run cs init s); [apply Inv_init | | exact Hr].
  intros [|? ?] ? ? H; discriminate H.
Qed.

Lemma nothing_before_start_witness : started_first (log (after that_first)).
Proof. apply nothing_before_start, reachable_after. Defined.

(** ** Every run ends *)

(** X5. From every reachable state, also after a write has failed, the run
    can be continued until the process exits with status 0: no schedule and
    no failed write leaves the script hanging. *)
Theorem always_can_exit s :
  reachable s → ∃ cs s', run s cs = Some s' ∧ exit_code s' = Some 0%Z.
Proof. intros Hr. now apply can_exit, reachable_Inv. Qed.

Lemma always_can_exit_witness :
  ∃ cs s', run (after broken_midway) cs = Some s' ∧ exit_code s' = Some 0%Z.
Proof. apply always_can_exit, reachable_after. Defined.

(** ** Every run is short *)

(** X6. Every run is finite: however it is scheduled, and apart from the
    mere passage of time, the script and the interpreter make at most 16
    moves (5 by the launcher, 5 by each unit, 1 to exit). *)
Theorem at_most_16_moves cs s :
  run init cs = Some s → (moves cs ≤ 16)%nat.
Proof.
  intros Hr. pose proof (moves_run cs init s Inv_init Hr) as H.
  change (moves_left init) with 16%nat in H. lia.
Qed.

Lemma at_most_16_moves_witness :
  (moves launcher_first ≤ 16)%nat.
Proof. apply (at_most_16_moves launcher_first (after launcher_first)). reflexivity. Defined.
